(** * Validation helpers of gardener's core API group

    A shallow embedding of
    [vendor/github.com/gardener/gardener/pkg/apis/core/validation/utils.go]:
    [validateSecretReference], [validateNameConsecutiveHyphens],
    [getPercentValue], [equal] and [ShouldEnforceImmutability].

    Go values are embedded as follows.
    - [string] is a byte sequence: [String.string] (a list of [ascii]).
    - [[]string] is [list string]; [len] is [length], read as a Go [int]
      through [Z.of_nat].  Both lengths lie in [0, 2^63), so the difference
      computed by the source cannot wrap and is written as a plain [Z]
      subtraction.
    - A run-time panic (index or slice bound out of range) is the [Panic]
      outcome of the [result] type; everything else is [Ok]. *)

From Equations Require Import Equations.
From Equations.Prop Require Import Logic.
From Stdlib Require Import String Ascii.
From Stdlib Require Import List Arith ZArith Lia Bool.
From Stdlib Require Import DecimalString DecimalNat.
Import ListNotations.

Set Implicit Arguments.

(** * Part I: the program *)

(** ** Outcomes of Go code that may panic *)

Inductive result (A : Type) : Type :=
| Ok (a : A)
| Panic.
Arguments Ok {A} a.
Arguments Panic {A}.

Definition bind {A B : Type} (r : result A) (k : A -> result B) : result B :=
  match r with
  | Ok a => k a
  | Panic => Panic
  end.

Notation "x <- r ;; k" := (bind r (fun x => k))
  (at level 61, r at next level, right associativity).

(** [len(s)] of a slice, as a Go [int]. *)
Definition len {A : Type} (s : list A) : Z := Z.of_nat (length s).

(** [len(s)] of a string, as a Go [int]. *)
Definition strlen (s : string) : Z := Z.of_nat (String.length s).

(** ** Collaborators from outside the file *)

Module field.

(** Modelled from the spec: the package
    [k8s.io/apimachinery/pkg/util/validation/field] is imported by the source
    but is not part of it.  A path is the ordered sequence of its segments,
    outermost first; an error carries its kind, the path it concerns, the
    offending value (empty for an omission) and a message. *)
Definition Path : Type := list string.

Definition Child (p : Path) (name : string) : Path := p ++ [name].

Inductive ErrorType : Type :=
| ErrorTypeRequired
| ErrorTypeInvalid.

Record Error : Type := mkError {
  Type_ : ErrorType;
  Field : Path;
  BadValue : string;
  Detail : string
}.

Definition ErrorList : Type := list Error.

Definition Required (p : Path) (detail : string) : Error :=
  mkError ErrorTypeRequired p "" detail.

Definition Invalid (p : Path) (value : string) (detail : string) : Error :=
  mkError ErrorTypeInvalid p value detail.

End field.

Module corev1.

(** The two attributes of [corev1.SecretReference]. *)
Record SecretReference : Type := mkSecretReference {
  Name : string;
  Namespace : string
}.

End corev1.

Module strings.

(** [strings.Index(s, substr)] of the Go standard library: the byte offset
    of the first occurrence of [substr] in [s], or [-1].  [at_] is the offset
    of [s] in the string the search started from. *)
Fixpoint index_from (at_ : Z) (s substr : string) : Z :=
  if String.prefix substr s then at_
  else match s with
       | EmptyString => (-1)%Z
       | String _ s' => index_from (at_ + 1) s' substr
       end.

Definition Index (s substr : string) : Z := index_from 0 s substr.

(** [strings.Contains(s, substr)] is [Index(s, substr) >= 0]. *)
Definition Contains (s substr : string) : bool := (Index s substr >=? 0)%Z.

End strings.

Module intstr.

(** [intstr.Type] is an [int64] with the two named values [Int] and
    [String]; [Type] being reserved, the type is [TypeT] and the field
    [Type_]. *)
Definition TypeT : Type := Z.
Definition Int : TypeT := 0%Z.
Definition String : TypeT := 1%Z.

Record IntOrString : Type := mkIntOrString {
  Type_ : TypeT;
  IntVal : Z;
  StrVal : string
}.

Definition FromInt (val : Z) : IntOrString := mkIntOrString Int val "".
Definition FromString (val : string) : IntOrString := mkIntOrString String 0 val.

End intstr.

Definition is_digit (c : ascii) : bool :=
  (48 <=? nat_of_ascii c) && (nat_of_ascii c <=? 57).

Module validation.

(** The rest of a percent string after its first digit: more digits, then a
    single closing percent sign. *)
Fixpoint percent_rest (s : string) : bool :=
  match s with
  | EmptyString => false
  | String c EmptyString => Ascii.eqb c "%"
  | String c s' => is_digit c && percent_rest s'
  end.

Definition matches_percent (s : string) : bool :=
  match s with
  | EmptyString => false
  | String c s' => is_digit c && percent_rest s'
  end.

(** Modelled from the spec: [IsValidPercent] of
    [k8s.io/apimachinery/pkg/util/validation] is imported by the source but
    is not part of it.  It returns the list of violation messages, empty
    exactly for the percent syntax "<digits>%" (one digit at least). *)
Definition IsValidPercent (percent : string) : list string :=
  if matches_percent percent then []
  else ["a valid percent string must be a numeric string followed by an ending '%'"%string].

End validation.

Module strconv.

Inductive error : Type :=
| ErrSyntax
| ErrRange.

Definition maxInt : Z := (2 ^ 63 - 1)%Z.
Definition minInt : Z := (- 2 ^ 63)%Z.

Fixpoint digits_value (acc : Z) (s : string) : option Z :=
  match s with
  | EmptyString => Some acc
  | String c s' =>
      if is_digit c
      then digits_value (10 * acc + (Z.of_nat (nat_of_ascii c) - 48))%Z s'
      else None
  end.

(** [strconv.Atoi] of the Go standard library on a 64-bit platform: an
    optional sign and one decimal digit at least; a syntax error yields [0],
    a value out of range yields the nearest bound, both with an error. *)
Definition Atoi (s : string) : Z * option error :=
  let '(neg, body) :=
    match s with
    | String "+"%char r => (false, r)
    | String "-"%char r => (true, r)
    | _ => (false, s)
    end in
  match body with
  | EmptyString => (0%Z, Some ErrSyntax)
  | _ =>
      match digits_value 0 body with
      | None => (0%Z, Some ErrSyntax)
      | Some v =>
          let v := if neg then (- v)%Z else v in
          if (v >? maxInt)%Z then (maxInt, Some ErrRange)
          else if (v <? minInt)%Z then (minInt, Some ErrRange)
          else (v, None)
      end
  end.

End strconv.

(** ** [validateSecretReference] *)

Definition validateSecretReference
  (ref : corev1.SecretReference) (fldPath : field.Path) : field.ErrorList :=
  let allErrs : field.ErrorList := [] in
  let allErrs :=
    if (strlen (corev1.Name ref) =? 0)%Z
    then allErrs ++ [field.Required (field.Child fldPath "name") "must provide a name"]
    else allErrs in
  let allErrs :=
    if (strlen (corev1.Namespace ref) =? 0)%Z
    then allErrs ++ [field.Required (field.Child fldPath "namespace") "must provide a namespace"]
    else allErrs in
  allErrs.

(** ** [validateNameConsecutiveHyphens] *)

Definition validateNameConsecutiveHyphens
  (name : string) (fldPath : field.Path) : field.ErrorList :=
  let allErrs : field.ErrorList := [] in
  let allErrs :=
    if strings.Contains name "--"
    then allErrs ++ [field.Invalid fldPath name "name may not contain two consecutive hyphens"]
    else allErrs in
  allErrs.

(** ** [getPercentValue] *)

(** [s[:hi]] on a string: panics unless [0 <= hi <= len(s)]. *)
Definition string_slice_to (s : string) (hi : Z) : result string :=
  if ((0 <=? hi) && (hi <=? strlen s))%Z
  then Ok (substring 0 (Z.to_nat hi) s)
  else Panic.

Definition getPercentValue (intOrStringValue : intstr.IntOrString) : result (Z * bool) :=
  if negb (intstr.Type_ intOrStringValue =? intstr.String)%Z then Ok (0%Z, false)
  else if negb (len (validation.IsValidPercent (intstr.StrVal intOrStringValue)) =? 0)%Z
  then Ok (0%Z, false)
  else
    digits <- string_slice_to (intstr.StrVal intOrStringValue)
                (strlen (intstr.StrVal intOrStringValue) - 1) ;;
    let '(value, _) := strconv.Atoi digits in
    Ok (value, true).

(** ** Slices of strings *)

(** [s[i]]: panics when [i] is out of range. *)
Definition index_at (s : list string) (i : nat) : result string :=
  match nth_error s i with
  | Some x => Ok x
  | None => Panic
  end.

(** [s[:hi]]: panics unless [0 <= hi <= len(s)].  (Go admits [hi] up to the
    capacity; a list carries no spare capacity, and the source only ever
    slices below the length.) *)
Definition slice_to (s : list string) (hi : Z) : result (list string) :=
  if ((0 <=? hi) && (hi <=? len s))%Z then Ok (firstn (Z.to_nat hi) s) else Panic.

(** ** [equal] *)

(** The body of [for i := range new]: the indices still to visit are [idx]. *)
Fixpoint equal_loop (idx : list nat) (new old : list string) : result bool :=
  match idx with
  | [] => Ok true
  | i :: idx' =>
      a <- index_at new i ;;
      b <- index_at old i ;;
      if negb (String.eqb a b) then Ok false else equal_loop idx' new old
  end.

Definition equal (new old : list string) : result bool :=
  equal_loop (seq 0 (length new)) new old.

(** ** [ShouldEnforceImmutability] *)

Definition sizeDelta (new old : list string) : Z := (len new - len old)%Z.

(** The recursive call is on the truncated slice [newA], not on a subterm of
    [new]; the recursion is justified by [len(newA) < len(new)], which holds
    because [sizeDelta > 0] on that branch. *)
Equations? ShouldEnforceImmutability (new old : list string) : result bool
  by wf (length new) lt :=
ShouldEnforceImmutability new old with inspect (sizeDelta new old >? 0)%Z := {
  | exist _ true Hd with inspect (slice_to new (len new - sizeDelta new old)) := {
    | exist _ (Ok newA) Hs with equal newA old := {
      | Ok true := Ok false
      | Ok false := ShouldEnforceImmutability newA old
      | Panic := Panic }
    | exist _ Panic _ := Panic }
  | exist _ false _ := Ok ((sizeDelta new old <? 0)%Z || (sizeDelta new old =? 0)%Z) }.
Proof.
  unfold slice_to, sizeDelta, len in Hd, Hs.
  destruct (_ && _)%bool; [|discriminate].
  injection Hs as <-. rewrite length_firstn. lia.
Qed.

(** ** [validateDNS1123Subdomain] and [validateDNS1123Label] *)

Section ConformanceCheckers.

(** [validation.IsDNS1123Subdomain] and [validation.IsDNS1123Label] of
    [k8s.io/apimachinery/pkg/util/validation] are imported by the source but
    are not part of it: each maps a value to the list of its violation
    messages, empty for a conforming value.  They are parameters here. *)
Variable IsDNS1123Subdomain : string -> list string.
Variable IsDNS1123Label : string -> list string.

Definition validateDNS1123Subdomain
  (value : string) (fldPath : field.Path) : field.ErrorList :=
  let allErrs : field.ErrorList := [] in
  let allErrs :=
    fold_left (fun allErrs msg => allErrs ++ [field.Invalid fldPath value msg])
      (IsDNS1123Subdomain value) allErrs in
  allErrs.

Definition validateDNS1123Label
  (value : string) (fldPath : field.Path) : field.ErrorList :=
  let allErrs : field.ErrorList := [] in
  let allErrs :=
    fold_left (fun allErrs msg => allErrs ++ [field.Invalid fldPath value msg])
      (IsDNS1123Label value) allErrs in
  allErrs.

End ConformanceCheckers.

(** ** [getIntOrPercentValue] *)

Section IntOrPercent.

(** The method [IntValue] of [intstr.IntOrString] is imported by the source
    but is not part of it; it is a parameter here. *)
Variable IntValue : intstr.IntOrString -> Z.

Definition getIntOrPercentValue (intOrStringValue : intstr.IntOrString) : result Z :=
  r <- getPercentValue intOrStringValue ;;
  let '(value, isPercent) := r in
  if isPercent then Ok value else Ok (IntValue intOrStringValue).

End IntOrPercent.

(** ** Vocabulary of the specification *)

(** [inserted old new]: [new] is obtained from [old] by inserting zero or
    more elements at arbitrary positions, the elements of [old] keeping their
    relative order. *)
Inductive inserted : list string -> list string -> Prop :=
| inserted_nil : inserted [] []
| inserted_keep x old new : inserted old new -> inserted (x :: old) (x :: new)
| inserted_new x old new : inserted old new -> inserted old (x :: new).

(** [appended old new]: [new] is obtained from [old] by adding one or more
    elements, each one after everything already there. *)
Inductive appended (old : list string) : list string -> Prop :=
| appended_one x : appended old (old ++ [x])
| appended_more new x : appended old new -> appended old (new ++ [x]).

(** Element-wise equality of two sequences of the same length. *)
Fixpoint elementwise_eqb (a b : list string) : bool :=
  match a, b with
  | [], [] => true
  | x :: a', y :: b' => String.eqb x y && elementwise_eqb a' b'
  | _, _ => false
  end.

(** The non-recursive decision: [false] exactly when [new] is longer than
    [old] and its first [len(old)] elements are those of [old]. *)
Definition prefix_decision (new old : list string) : bool :=
  negb ((len new >? len old)%Z && elementwise_eqb (firstn (length old) new) old).

(** Agreement of [new] and [old] on the index range [k, k+n). *)
Definition agree_on (new old : list string) (k n : nat) : Prop :=
  forall i, k <= i < k + n -> nth_error new i = nth_error old i.

(** [occurs_in sub s]: the literal [sub] occurs somewhere in [s]. *)
Definition occurs_in (sub s : string) : Prop :=
  exists pre post, s = (pre ++ sub ++ post)%string.

(** [percent_string n]: the decimal numeral of [n] followed by a percent
    sign, as in "42%". *)
Definition percent_string (n : nat) : string :=
  (NilEmpty.string_of_uint (Nat.to_uint n) ++ "%")%string.

(** [ends_with_hyphen a]: the last byte of [a] is a hyphen. *)
Definition ends_with_hyphen (a : string) : Prop :=
  exists a0, a = (a0 ++ "-")%string.

(** [starts_with_hyphen b]: the first byte of [b] is a hyphen. *)
Definition starts_with_hyphen (b : string) : Prop :=
  exists b0, b = String "-"%char b0.

(** [all_digits s]: every byte of [s] is a decimal digit. *)
Fixpoint all_digits (s : string) : bool :=
  match s with
  | EmptyString => true
  | String c s' => is_digit c && all_digits s'
  end.

(** * Part II: properties *)

(** ** [equal] on slices that are long enough *)

Section EqualFacts.

Variables new old : list string.

Lemma index_at_in_range (s : list string) (i : nat) :
  i < length s -> exists x, nth_error s i = Some x /\ index_at s i = Ok x.
Proof.
  intros Hi. unfold index_at.
  destruct (nth_error s i) as [x|] eqn:E.
  - exists x. split; reflexivity.
  - apply nth_error_None in E. lia.
Qed.

(** When every visited index is in range of both slices the loop does not
    panic, and it answers [true] exactly when the slices agree there. *)
Lemma equal_loop_range (n k : nat) :
  k + n <= length new -> k + n <= length old ->
  exists b, equal_loop (seq k n) new old = Ok b /\ (b = true <-> agree_on new old k n).
Proof.
  revert k. induction n as [|n IH]; intros k Hn Ho; simpl.
  - exists true. split; [reflexivity|]. split; [|reflexivity].
    intros _ i Hi. lia.
  - destruct (index_at_in_range new (i:=k)) as (a & Ea & ->); [lia|].
    destruct (index_at_in_range old (i:=k)) as (b & Eb & ->); [lia|].
    simpl. destruct (String.eqb_spec a b) as [<-|Hab]; simpl.
    + destruct (IH (S k)) as (r & -> & Hr); [lia|lia|].
      exists r. split; [reflexivity|]. rewrite Hr. split.
      * intros H i Hi. destruct (Nat.eq_dec i k) as [->|Hik].
        -- congruence.
        -- apply H. lia.
      * intros H i Hi. apply H. lia.
    + exists false. split; [reflexivity|]. split; [discriminate|].
      intros H. exfalso. apply Hab.
      assert (E : nth_error new k = nth_error old k) by (apply H; lia).
      congruence.
Qed.

Lemma agree_on_all :
  length new = length old -> (agree_on new old 0 (length new) <-> new = old).
Proof.
  intros Hlen. split.
  - intros H. apply nth_error_ext. intros i.
    destruct (Nat.lt_ge_cases i (length new)) as [Hi|Hi].
    + apply H. lia.
    + transitivity (@None string); [|symmetry]; apply nth_error_None; lia.
  - intros E i _. rewrite E. reflexivity.
Qed.

(** On slices of the same length [equal] is value equality. *)
Lemma equal_same_length :
  length new = length old ->
  exists b, equal new old = Ok b /\ (b = true <-> new = old).
Proof.
  intros Hlen. unfold equal.
  destruct (@equal_loop_range (length new) 0) as (b & Eb & Hb); [lia|lia|].
  exists b. split; [exact Eb|].
  rewrite Hb. apply agree_on_all. exact Hlen.
Qed.

End EqualFacts.

(** [equal] reads [old[i]] for every index of [new]: a longer [new] that
    agrees with [old] on all of [old] runs off the end of [old]. *)
Example equal_longer_new_panics :
  equal ["a"; "b"]%string ["a"]%string = Panic.
Proof. reflexivity. Qed.

Example equal_longer_new_mismatch :
  equal ["x"; "b"]%string ["a"]%string = Ok false.
Proof. reflexivity. Qed.

(** ** The truncated slice *)

Lemma slice_to_shorter (new old newA : list string) :
  (sizeDelta new old >? 0)%Z = true ->
  slice_to new (len new - sizeDelta new old) = Ok newA ->
  length newA < length new.
Proof.
  unfold slice_to, sizeDelta, len. intros Hd Hs.
  destruct (_ && _)%bool; [|discriminate].
  injection Hs as <-. rewrite length_firstn. lia.
Qed.

Lemma slice_to_old (new old : list string) :
  (sizeDelta new old >? 0)%Z = true ->
  slice_to new (len new - sizeDelta new old) = Ok (firstn (length old) new).
Proof.
  unfold slice_to, sizeDelta, len. intros Hd.
  replace (Z.of_nat (length new) - (Z.of_nat (length new) - Z.of_nat (length old)))%Z
    with (Z.of_nat (length old)) by lia.
  rewrite Nat2Z.id.
  destruct (_ && _)%bool eqn:E; [reflexivity|].
  apply andb_false_iff in E. apply Z.gtb_lt in Hd.
  destruct E as [E|E]; apply Z.leb_gt in E; exfalso; lia.
Qed.

Lemma length_truncated (new old : list string) :
  (sizeDelta new old >? 0)%Z = true ->
  length (firstn (length old) new) = length old.
Proof.
  unfold sizeDelta, len. intros Hd. rewrite length_firstn. lia.
Qed.

(** ** [ShouldEnforceImmutability], one branch at a time *)

(** The definition above satisfies the equation that reads as the body of
    the Go function. *)
Lemma ShouldEnforceImmutability_body (new old : list string) :
  ShouldEnforceImmutability new old =
  if (sizeDelta new old >? 0)%Z then
    newA <- slice_to new (len new - sizeDelta new old) ;;
    eq <- equal newA old ;;
    if eq then Ok false else ShouldEnforceImmutability newA old
  else Ok ((sizeDelta new old <? 0)%Z || (sizeDelta new old =? 0)%Z).
Proof.
  funelim (ShouldEnforceImmutability new old);
    match goal with
    | E : (sizeDelta _ _ >? 0)%Z = _ |- _ => rewrite E
    end;
    try match goal with
    | E : slice_to _ _ = _ |- _ => rewrite E; simpl
    end;
    try match goal with
    | E : equal _ _ = _ |- _ => rewrite E; simpl
    end;
    reflexivity.
Qed.

Lemma SEI_not_longer (new old : list string) :
  (sizeDelta new old >? 0)%Z = false ->
  ShouldEnforceImmutability new old = Ok true.
Proof.
  intros Hd. rewrite ShouldEnforceImmutability_body, Hd.
  f_equal. apply orb_true_iff.
  destruct (Z.ltb_spec (sizeDelta new old) 0) as [Hlt|Hge]; [left; reflexivity|].
  right. apply Z.eqb_eq.
  rewrite Z.gtb_ltb in Hd. apply Z.ltb_ge in Hd. lia.
Qed.

Lemma SEI_longer (new old : list string) :
  (sizeDelta new old >? 0)%Z = true ->
  exists eq,
    equal (firstn (length old) new) old = Ok eq /\
    (eq = true <-> firstn (length old) new = old) /\
    ShouldEnforceImmutability new old = Ok (negb eq).
Proof.
  intros Hd.
  destruct (@equal_same_length (firstn (length old) new) old) as (eq & Eeq & Heq).
  { apply length_truncated. exact Hd. }
  exists eq. split; [exact Eeq|]. split; [exact Heq|].
  rewrite ShouldEnforceImmutability_body, Hd, (slice_to_old _ _ Hd). simpl.
  rewrite Eeq. simpl. destruct eq; [reflexivity|].
  apply SEI_not_longer.
  unfold sizeDelta, len. rewrite (length_truncated _ _ Hd).
  rewrite Z.sub_diag. reflexivity.
Qed.

(** [ShouldEnforceImmutability] answers [false] exactly on a strictly longer
    [new] whose leading [len(old)] elements are [old]. *)
Lemma SEI_false_iff (new old : list string) :
  ShouldEnforceImmutability new old = Ok false <->
  length old < length new /\ firstn (length old) new = old.
Proof.
  destruct (sizeDelta new old >? 0)%Z eqn:Hd.
  - destruct (SEI_longer _ _ Hd) as (eq & _ & Heq & ->).
    apply Z.gtb_lt in Hd. unfold sizeDelta, len in Hd.
    split.
    + intros H. split; [lia|]. apply Heq. destruct eq; [reflexivity|discriminate].
    + intros [_ H]. apply Heq in H. rewrite H. reflexivity.
  - rewrite (SEI_not_longer _ _ Hd).
    rewrite Z.gtb_ltb in Hd. apply Z.ltb_ge in Hd. unfold sizeDelta, len in Hd.
    split; [discriminate|]. intros [H _]. lia.
Qed.

Lemma SEI_returns (new old : list string) :
  exists b, ShouldEnforceImmutability new old = Ok b.
Proof.
  destruct (sizeDelta new old >? 0)%Z eqn:Hd.
  - destruct (SEI_longer _ _ Hd) as (eq & _ & _ & ->). eauto.
  - rewrite (SEI_not_longer _ _ Hd). eauto.
Qed.

Lemma SEI_true_iff (new old : list string) :
  ShouldEnforceImmutability new old = Ok true <->
  ~ (length old < length new /\ firstn (length old) new = old).
Proof.
  rewrite <- SEI_false_iff.
  destruct (SEI_returns new old) as ([|] & ->); split; congruence.
Qed.

Lemma firstn_is_old_iff (new old : list string) :
  length old < length new /\ firstn (length old) new = old <->
  exists extra, extra <> [] /\ new = old ++ extra.
Proof.
  split.
  - intros [Hlen Hpre]. exists (skipn (length old) new). split.
    + intros E. apply (f_equal (@length string)) in E.
      rewrite length_skipn in E. simpl in E. lia.
    + rewrite <- Hpre at 1. symmetry. apply firstn_skipn.
  - intros (extra & Hne & ->). split.
    + rewrite length_app. destruct extra; [congruence|simpl; lia].
    + rewrite firstn_app, Nat.sub_diag, firstn_all. simpl. apply app_nil_r.
Qed.

(** ** Insertions and trailing additions *)

Lemma inserted_refl (l : list string) : inserted l l.
Proof. induction l; constructor; assumption. Qed.

Lemma inserted_app_r (old new extra : list string) :
  inserted old new -> inserted old (new ++ extra).
Proof.
  induction 1 as [|x old new _ IH|x old new _ IH]; simpl.
  - induction extra; constructor; assumption.
  - apply inserted_keep, IH.
  - apply inserted_new, IH.
Qed.

Lemma appended_inserted (old new : list string) :
  appended old new -> inserted old new.
Proof.
  induction 1 as [x|new x _ IH].
  - apply inserted_app_r, inserted_refl.
  - apply inserted_app_r, IH.
Qed.

Lemma inserted_length (old new : list string) :
  inserted old new -> length old <= length new.
Proof. induction 1; simpl; lia. Qed.

#[local] Open Scope string_scope.
#[local] Open Scope list_scope.

(** ** Claims about [ShouldEnforceImmutability] *)

(** C1, as the claim states it, fails: an element inserted between two
    retained ones is an insertion and yet the answer is [true], and so is
    the answer when nothing is inserted at all. *)
Lemma C1_arbitrary_insertion_counterexample :
  (inserted ["a"; "b"] ["a"; "x"; "b"] /\
   ShouldEnforceImmutability ["a"; "x"; "b"] ["a"; "b"] = Ok true) /\
  (inserted ["a"; "b"] ["a"; "b"] /\
   ShouldEnforceImmutability ["a"; "b"] ["a"; "b"] = Ok true).
Proof.
  split; split; try reflexivity.
  - apply inserted_keep, inserted_new, inserted_refl.
  - apply inserted_refl.
Qed.

(** C1 (amended): [ShouldEnforceImmutability new old] returns [false]
    whenever [new] is obtained from [old] by adding one or more new elements,
    every one of them after all the elements of [old], which stay where they
    were. *)
Theorem C1_trailing_insertion_allowed (old new : list string) :
  appended old new -> ShouldEnforceImmutability new old = Ok false.
Proof.
  intros H. apply SEI_false_iff.
  induction H as [x|new x _ [IHlen IHpre]].
  - split.
    + rewrite length_app. simpl. lia.
    + rewrite firstn_app, Nat.sub_diag, firstn_all. simpl. apply app_nil_r.
  - split.
    + rewrite length_app. simpl. lia.
    + rewrite firstn_app.
      replace (length old - length new) with 0 by lia.
      simpl. rewrite app_nil_r. exact IHpre.
Qed.

Lemma C1_trailing_insertion_allowed_witness :
  appended ["a"; "b"] ["a"; "b"; "c"; "d"] /\
  inserted ["a"; "b"] ["a"; "b"; "c"; "d"] /\
  ShouldEnforceImmutability ["a"; "b"; "c"; "d"] ["a"; "b"] = Ok false.
Proof.
  assert (H : appended ["a"; "b"] ["a"; "b"; "c"; "d"]).
  { apply (appended_more (new := ["a"; "b"; "c"]) "d").
    apply (appended_one ["a"; "b"] "c"). }
  split; [exact H|]. split.
  - apply appended_inserted, H.
  - apply (C1_trailing_insertion_allowed H).
Defined.

(** C2: for every [old] and every non-empty [extra],
    [ShouldEnforceImmutability (old ++ extra) old] returns [false]. *)
Theorem C2_trailing_append_allowed (old extra : list string) :
  extra <> [] -> ShouldEnforceImmutability (old ++ extra) old = Ok false.
Proof.
  intros Hne. apply SEI_false_iff, firstn_is_old_iff.
  exists extra. split; [exact Hne|reflexivity].
Qed.

Lemma C2_trailing_append_allowed_witness :
  ["c"] <> [] /\ ShouldEnforceImmutability (["a"; "b"] ++ ["c"]) ["a"; "b"] = Ok false.
Proof.
  split; [discriminate|].
  apply (@C2_trailing_append_allowed ["a"; "b"] ["c"]). discriminate.
Defined.

(** C3: two sequences of equal length always give [true], also when they
    are the same sequence. *)
Theorem C3_equal_length_enforces :
  (forall new old : list string,
     length new = length old -> ShouldEnforceImmutability new old = Ok true) /\
  (forall s : list string, ShouldEnforceImmutability s s = Ok true).
Proof.
  assert (H : forall new old : list string,
             length new = length old -> ShouldEnforceImmutability new old = Ok true).
  { intros new old Hlen. apply SEI_not_longer.
    unfold sizeDelta, len. rewrite Hlen, Z.sub_diag. reflexivity. }
  split; [exact H|]. intros s. apply H. reflexivity.
Qed.

Lemma C3_equal_length_enforces_witness :
  length ["a"; "b"] = length ["c"; "d"] /\
  ShouldEnforceImmutability ["a"; "b"] ["c"; "d"] = Ok true /\
  ShouldEnforceImmutability ["a"; "b"] ["a"; "b"] = Ok true.
Proof.
  split; [reflexivity|]. split.
  - apply (proj1 C3_equal_length_enforces). reflexivity.
  - apply (proj2 C3_equal_length_enforces).
Defined.

(** C4: a [new] shorter than [old] always gives [true]; in particular
    [old[:len(old)-1]] against a non-empty [old] does. *)
Theorem C4_shrinking_enforces :
  (forall new old : list string,
     length new < length old -> ShouldEnforceImmutability new old = Ok true) /\
  (forall old : list string,
     1 <= length old ->
     exists shorter,
       slice_to old (len old - 1) = Ok shorter /\
       ShouldEnforceImmutability shorter old = Ok true).
Proof.
  assert (H : forall new old : list string,
             length new < length old -> ShouldEnforceImmutability new old = Ok true).
  { intros new old Hlen. apply SEI_not_longer.
    unfold sizeDelta, len. rewrite Z.gtb_ltb. apply Z.ltb_ge. lia. }
  split; [exact H|]. intros old Hlen.
  exists (firstn (length old - 1) old). split.
  - unfold slice_to, len.
    replace (Z.to_nat (Z.of_nat (length old) - 1)) with (length old - 1) by lia.
    destruct (_ && _)%bool eqn:E; [reflexivity|].
    apply andb_false_iff in E. destruct E as [E|E]; apply Z.leb_gt in E; exfalso; lia.
  - apply H. rewrite length_firstn. lia.
Qed.

Lemma C4_shrinking_enforces_witness :
  length ["a"] < length ["a"; "b"] /\
  ShouldEnforceImmutability ["a"] ["a"; "b"] = Ok true /\
  exists shorter,
    slice_to ["a"; "b"] (len ["a"; "b"] - 1) = Ok shorter /\
    ShouldEnforceImmutability shorter ["a"; "b"] = Ok true.
Proof.
  split; [simpl; lia|]. split.
  - apply (proj1 C4_shrinking_enforces). simpl; lia.
  - apply (proj2 C4_shrinking_enforces ["a"; "b"]). simpl; lia.
Defined.

(** C5: an insertion in the middle and a reordering both give [true], and
    [false] is only ever returned when [new] is [old] followed by one or more
    further elements. *)
Theorem C5_middle_and_reorder_enforce :
  ShouldEnforceImmutability ["a"; "x"; "b"] ["a"; "b"] = Ok true /\
  ShouldEnforceImmutability ["b"; "a"] ["a"; "b"] = Ok true /\
  (forall new old : list string,
     ShouldEnforceImmutability new old = Ok false ->
     exists extra, extra <> [] /\ new = old ++ extra).
Proof.
  split; [reflexivity|]. split; [reflexivity|].
  intros new old H. apply firstn_is_old_iff, SEI_false_iff, H.
Qed.

Lemma C5_middle_and_reorder_enforce_witness :
  ShouldEnforceImmutability ["a"; "b"; "c"] ["a"; "b"] = Ok false /\
  exists extra, extra <> [] /\ ["a"; "b"; "c"] = ["a"; "b"] ++ extra.
Proof.
  split; [reflexivity|].
  apply (proj2 (proj2 C5_middle_and_reorder_enforce) ["a"; "b"; "c"] ["a"; "b"]).
  reflexivity.
Defined.

(** C6: [ShouldEnforceImmutability] returns a boolean on every pair of
    sequences, never a panic, and the slice handed to the recursive call is
    strictly shorter than [new]. *)
Theorem C6_total :
  (forall new old : list string,
     exists b : bool, ShouldEnforceImmutability new old = Ok b) /\
  (forall new old newA : list string,
     (sizeDelta new old >? 0)%Z = true ->
     slice_to new (len new - sizeDelta new old) = Ok newA ->
     length newA < length new).
Proof.
  split.
  - exact SEI_returns.
  - exact slice_to_shorter.
Qed.

Lemma C6_total_witness :
  (sizeDelta ["a"; "x"; "b"] ["a"; "b"] >? 0)%Z = true /\
  slice_to ["a"; "x"; "b"] (len ["a"; "x"; "b"] - sizeDelta ["a"; "x"; "b"] ["a"; "b"])
    = Ok ["a"; "x"] /\
  length ["a"; "x"] < length ["a"; "x"; "b"].
Proof.
  split; [reflexivity|]. split; [reflexivity|].
  apply (proj2 C6_total ["a"; "x"; "b"] ["a"; "b"] ["a"; "x"]); reflexivity.
Defined.

Lemma elementwise_eqb_eq (a b : list string) :
  elementwise_eqb a b = true <-> a = b.
Proof.
  revert b. induction a as [|x a IH]; intros [|y b]; simpl;
    try (split; [reflexivity || discriminate | reflexivity || discriminate]).
  rewrite andb_true_iff, String.eqb_eq, IH. split.
  - intros [-> ->]. reflexivity.
  - intros E. injection E as -> ->. split; reflexivity.
Qed.

Lemma prefix_decision_false_iff (new old : list string) :
  prefix_decision new old = false <->
  length old < length new /\ firstn (length old) new = old.
Proof.
  unfold prefix_decision, len.
  rewrite negb_false_iff, andb_true_iff, elementwise_eqb_eq, Z.gtb_ltb, Z.ltb_lt.
  split; intros [H1 H2]; (split; [lia|exact H2]).
Qed.

(** C10: [ShouldEnforceImmutability] coincides with the non-recursive
    decision: [false] if and only if [new] is longer than [old] and its first
    [len(old)] elements are those of [old].  The slice handed to the
    recursive call has the length of [old], so the size delta is [0] there
    and that call returns [true] without recursing again. *)
Theorem C10_one_level_refinement :
  (forall new old : list string,
     ShouldEnforceImmutability new old = Ok (prefix_decision new old)) /\
  (forall new old : list string,
     ShouldEnforceImmutability new old = Ok false <->
     length old < length new /\ firstn (length old) new = old) /\
  (forall new old newA : list string,
     (sizeDelta new old >? 0)%Z = true ->
     slice_to new (len new - sizeDelta new old) = Ok newA ->
     length newA = length old /\
     sizeDelta newA old = 0%Z /\
     ShouldEnforceImmutability newA old = Ok true).
Proof.
  split; [|split].
  - intros new old.
    destruct (SEI_returns new old) as (b & E). rewrite E. f_equal.
    destruct b.
    + destruct (prefix_decision new old) eqn:D; [reflexivity|].
      apply prefix_decision_false_iff, SEI_false_iff in D. congruence.
    + symmetry. apply prefix_decision_false_iff, SEI_false_iff, E.
  - exact SEI_false_iff.
  - intros new old newA Hd Hs.
    rewrite (slice_to_old _ _ Hd) in Hs. injection Hs as <-.
    pose proof (length_truncated _ _ Hd) as Hlen.
    assert (H0 : sizeDelta (firstn (length old) new) old = 0%Z).
    { unfold sizeDelta, len. rewrite Hlen. apply Z.sub_diag. }
    split; [exact Hlen|]. split; [exact H0|].
    apply SEI_not_longer. rewrite H0. reflexivity.
Qed.

Lemma C10_one_level_refinement_witness :
  (sizeDelta ["a"; "x"; "b"] ["a"; "b"] >? 0)%Z = true /\
  slice_to ["a"; "x"; "b"] (len ["a"; "x"; "b"] - sizeDelta ["a"; "x"; "b"] ["a"; "b"])
    = Ok ["a"; "x"] /\
  length ["a"; "x"] = length ["a"; "b"] /\
  sizeDelta ["a"; "x"] ["a"; "b"] = 0%Z /\
  ShouldEnforceImmutability ["a"; "x"] ["a"; "b"] = Ok true.
Proof.
  split; [reflexivity|]. split; [reflexivity|].
  apply (proj2 (proj2 C10_one_level_refinement) ["a"; "x"; "b"] ["a"; "b"] ["a"; "x"]);
    reflexivity.
Defined.

(** ** Claims about the field validators *)

Lemma strlen_zero_iff (s : string) : (strlen s =? 0)%Z = true <-> s = "".
Proof.
  unfold strlen. rewrite Z.eqb_eq. destruct s; simpl; split;
    try reflexivity; try discriminate; lia.
Qed.

Lemma strlen_zero_false_iff (s : string) : (strlen s =? 0)%Z = false <-> s <> "".
Proof.
  rewrite <- strlen_zero_iff. destruct (strlen s =? 0)%Z; split; congruence.
Qed.

Lemma Child_inj (p : field.Path) (a b : string) :
  field.Child p a = field.Child p b -> a = b.
Proof.
  unfold field.Child. intros E. apply app_inv_head in E. congruence.
Qed.

(** Closes a goal [False] from [Hin : In e errs] and [Hf : Field e = p] when
    no error of the explicit list [errs] is at path [p]. *)
Ltac no_error_at Hin Hf :=
  simpl in Hin;
  repeat (destruct Hin as [Hin|Hin];
          [subst; simpl in Hf; apply Child_inj in Hf; discriminate Hf|]);
  exact Hin.

(** C7: [validateSecretReference] reports a Required error at [path.name]
    exactly when the name is empty and one at [path.namespace] exactly when
    the namespace is empty; with both empty the result is these two errors,
    the one for the name first, and with both present it is empty. *)
Theorem C7_secret_reference_required (ref : corev1.SecretReference) (path : field.Path) :
  ((exists e, In e (validateSecretReference ref path) /\
              field.Type_ e = field.ErrorTypeRequired /\
              field.Field e = field.Child path "name")
   <-> corev1.Name ref = "") /\
  ((exists e, In e (validateSecretReference ref path) /\
              field.Type_ e = field.ErrorTypeRequired /\
              field.Field e = field.Child path "namespace")
   <-> corev1.Namespace ref = "") /\
  (corev1.Name ref = "" -> corev1.Namespace ref = "" ->
   validateSecretReference ref path =
     [field.Required (field.Child path "name") "must provide a name";
      field.Required (field.Child path "namespace") "must provide a namespace"]) /\
  (corev1.Name ref <> "" -> corev1.Namespace ref <> "" ->
   validateSecretReference ref path = []).
Proof.
  destruct ref as [[|c1 name] [|c2 namespace]]; unfold validateSecretReference; simpl.
  - repeat split; try reflexivity; try congruence.
    + intros _. eexists. split; [left; reflexivity|]. split; reflexivity.
    + intros _. eexists. split; [right; left; reflexivity|]. split; reflexivity.
  - repeat split; try reflexivity; try congruence.
    + intros _. eexists. split; [left; reflexivity|]. split; reflexivity.
    + intros (e & Hin & _ & Hf). exfalso. no_error_at Hin Hf.
  - repeat split; try reflexivity; try congruence.
    + intros (e & Hin & _ & Hf). exfalso. no_error_at Hin Hf.
    + intros _. eexists. split; [left; reflexivity|]. split; reflexivity.
  - repeat split; try reflexivity; try congruence.
    + intros (e & Hin & _ & Hf). exfalso. no_error_at Hin Hf.
    + intros (e & Hin & _ & Hf). exfalso. no_error_at Hin Hf.
Qed.

Lemma C7_secret_reference_required_witness :
  validateSecretReference (corev1.mkSecretReference "" "") ["spec"; "secretRef"] =
    [field.Required ["spec"; "secretRef"; "name"] "must provide a name";
     field.Required ["spec"; "secretRef"; "namespace"] "must provide a namespace"] /\
  validateSecretReference (corev1.mkSecretReference "s" "ns") ["spec"; "secretRef"] = [].
Proof.
  split.
  - apply (proj1 (proj2 (proj2
      (C7_secret_reference_required (corev1.mkSecretReference "" "") ["spec"; "secretRef"])))
      eq_refl eq_refl).
  - apply (proj2 (proj2 (proj2
      (C7_secret_reference_required (corev1.mkSecretReference "s" "ns") ["spec"; "secretRef"])))).
    + discriminate.
    + discriminate.
Defined.

(** [String.prefix p s] holds exactly when [s] starts with [p]. *)
Lemma prefix_true_iff (p s : string) :
  String.prefix p s = true <-> exists post, s = (p ++ post)%string.
Proof.
  revert s. induction p as [|a p IH]; intros s; simpl.
  - destruct s; simpl; split; eauto.
  - destruct s as [|b s]; simpl.
    + split; [discriminate|]. intros (post & E). discriminate E.
    + destruct (ascii_dec a b) as [->|Hab].
      * rewrite IH. split; intros (post & E); exists post; congruence.
      * split; [discriminate|]. intros (post & E). congruence.
Qed.

Lemma occurs_in_prefix (sub s : string) :
  String.prefix sub s = true -> occurs_in sub s.
Proof.
  intros H. apply prefix_true_iff in H. destruct H as (post & ->).
  exists "", post. reflexivity.
Qed.

Lemma occurs_in_tail (sub s : string) (c : ascii) :
  occurs_in sub s -> occurs_in sub (String c s).
Proof.
  intros (pre & post & ->). exists (String c pre), post. reflexivity.
Qed.

Lemma occurs_in_inv (sub s : string) (c : ascii) :
  occurs_in sub (String c s) ->
  String.prefix sub (String c s) = true \/ occurs_in sub s.
Proof.
  intros ([|a pre] & post & E).
  - left. apply prefix_true_iff. exists post. exact E.
  - right. simpl in E. injection E as _ ->. exists pre, post. reflexivity.
Qed.

Lemma occurs_in_empty (sub : string) :
  occurs_in sub "" -> String.prefix sub "" = true.
Proof.
  intros ([|a pre] & post & E).
  - apply prefix_true_iff. exists post. exact E.
  - discriminate E.
Qed.

(** The search answers an offset at or after its start when the literal
    occurs, and [-1] when it does not. *)
Lemma index_from_spec (sub s : string) (at_ : Z) :
  (0 <= at_)%Z ->
  (occurs_in sub s /\ (at_ <= strings.index_from at_ s sub)%Z) \/
  (~ occurs_in sub s /\ strings.index_from at_ s sub = (-1)%Z).
Proof.
  revert at_. induction s as [|c s IH]; intros at_ Hat.
  - cbn [strings.index_from]. destruct (String.prefix sub "") eqn:P.
    + left. split; [apply occurs_in_prefix, P|lia].
    + right. split; [|reflexivity].
      intros H. apply occurs_in_empty in H. congruence.
  - cbn [strings.index_from]. destruct (String.prefix sub (String c s)) eqn:P.
    + left. split; [apply occurs_in_prefix, P|lia].
    + destruct (IH (at_ + 1)%Z) as [[Ho Hi]|[Hno Hi]]; [lia| |].
      * left. split; [apply occurs_in_tail, Ho|lia].
      * right. split; [|exact Hi].
        intros H. apply occurs_in_inv in H. destruct H as [H|H]; congruence.
Qed.

Lemma Contains_true_iff (s sub : string) :
  strings.Contains s sub = true <-> occurs_in sub s.
Proof.
  unfold strings.Contains, strings.Index.
  rewrite Z.geb_le.
  destruct (@index_from_spec sub s 0%Z) as [[Ho Hi]|[Hno Hi]]; [lia| |].
  - split; [intros _; exact Ho|intros _; lia].
  - rewrite Hi. split; [lia|]. intros H. contradiction.
Qed.

(** C8: [validateNameConsecutiveHyphens] returns exactly one Invalid error,
    at [path], if and only if the literal "--" occurs in the name, and the
    empty list otherwise; it never returns more than one error. *)
Theorem C8_consecutive_hyphens (name : string) (path : field.Path) :
  (occurs_in "--" name <->
   validateNameConsecutiveHyphens name path =
     [field.Invalid path name "name may not contain two consecutive hyphens"]) /\
  (~ occurs_in "--" name <-> validateNameConsecutiveHyphens name path = []) /\
  length (validateNameConsecutiveHyphens name path) <= 1.
Proof.
  unfold validateNameConsecutiveHyphens.
  destruct (strings.Contains name "--") eqn:C; simpl.
  - apply Contains_true_iff in C. repeat split; try congruence; try lia.
  - assert (Hno : ~ occurs_in "--" name).
    { intros H. apply Contains_true_iff in H. congruence. }
    repeat split; try congruence; try lia.
Qed.

Lemma C8_consecutive_hyphens_witness :
  occurs_in "--" "foo--bar" /\
  validateNameConsecutiveHyphens "foo--bar" ["metadata"; "name"] =
    [field.Invalid ["metadata"; "name"] "foo--bar"
       "name may not contain two consecutive hyphens"].
Proof.
  assert (H : occurs_in "--" "foo--bar") by (exists "foo", "bar"; reflexivity).
  split; [exact H|].
  apply (proj1 (proj1 (C8_consecutive_hyphens "foo--bar" ["metadata"; "name"])) H).
Defined.

Example validateNameConsecutiveHyphens_single_hyphen :
  validateNameConsecutiveHyphens "foo-bar" ["metadata"; "name"] = [].
Proof. reflexivity. Qed.

(** ** Claims about [getPercentValue] *)

(** The slice [StrVal[:len(StrVal)-1]] is only taken of a valid percent
    string, which is not empty: [getPercentValue] never panics. *)
Lemma getPercentValue_returns (v : intstr.IntOrString) :
  exists r, getPercentValue v = Ok r.
Proof.
  unfold getPercentValue.
  destruct (negb (intstr.Type_ v =? intstr.String)%Z); [eauto|].
  unfold validation.IsValidPercent.
  destruct (validation.matches_percent (intstr.StrVal v)) eqn:M; simpl; [|eauto].
  destruct (intstr.StrVal v) as [|c s]; [discriminate M|].
  unfold string_slice_to, strlen.
  destruct (_ && _)%bool eqn:E.
  - simpl. destruct (strconv.Atoi _). eauto.
  - apply andb_false_iff in E. simpl String.length in E.
    destruct E as [E|E]; apply Z.leb_gt in E; exfalso; lia.
Qed.

(** C9: on a string-typed value holding "42%", [getPercentValue] returns
    [(42, true)]; on any integer-typed value, [5] among them, it returns
    [(0, false)]. *)
Theorem C9_percent_value :
  (forall intVal : Z,
     getPercentValue (intstr.mkIntOrString intstr.String intVal "42%") = Ok (42%Z, true)) /\
  getPercentValue (intstr.FromString "42%") = Ok (42%Z, true) /\
  (forall v : intstr.IntOrString,
     intstr.Type_ v = intstr.Int -> getPercentValue v = Ok (0%Z, false)) /\
  getPercentValue (intstr.FromInt 5) = Ok (0%Z, false).
Proof.
  split; [intros; reflexivity|]. split; [reflexivity|].
  split; [|reflexivity].
  intros v Hv. unfold getPercentValue. rewrite Hv. reflexivity.
Qed.

Lemma C9_percent_value_witness :
  intstr.Type_ (intstr.mkIntOrString intstr.Int 5 "42%") = intstr.Int /\
  getPercentValue (intstr.mkIntOrString intstr.Int 5 "42%") = Ok (0%Z, false).
Proof.
  split; [reflexivity|].
  apply (proj1 (proj2 (proj2 C9_percent_value))). reflexivity.
Defined.

(** * Part III: further properties of the code *)

(** ** [equal] on slices of any two lengths *)

Section EqualCases.

Variables new old : list string.

(** The three ways the loop can end, started at index [k] with [n] indices
    to go: it runs to the end, it finds a differing pair, or it runs off the
    end of [old]. *)
Lemma equal_loop_cases (n k : nat) :
  k + n <= length new -> k <= length old ->
  (equal_loop (seq k n) new old = Ok true /\
   k + n <= length old /\ agree_on new old k n) \/
  (equal_loop (seq k n) new old = Ok false /\
   exists i a b, nth_error new i = Some a /\ nth_error old i = Some b /\ a <> b) \/
  (equal_loop (seq k n) new old = Panic /\
   length old < k + n /\ agree_on new old k (length old - k)).
Proof.
  revert k. induction n as [|n IH]; intros k Hn Ho.
  - left. simpl. split; [reflexivity|]. split; [lia|]. intros i Hi. lia.
  - cbn [seq equal_loop].
    destruct (@index_at_in_range new k) as (a & Ea & ->); [lia|].
    cbn [bind].
    destruct (Nat.eq_dec k (length old)) as [Hk|Hk].
    + right. right.
      assert (E : index_at old k = Panic).
      { unfold index_at.
        replace (nth_error old k) with (@None string); [reflexivity|].
        symmetry. apply nth_error_None. lia. }
      rewrite E. cbn [bind]. split; [reflexivity|]. split; [lia|].
      intros i Hi. lia.
    + destruct (@index_at_in_range old k) as (b & Eb & ->); [lia|].
      cbn [bind]. destruct (String.eqb_spec a b) as [<-|Hab]; cbn [negb].
      * destruct (IH (S k)) as [(-> & Hlen & Hag)|[(-> & Hex)|(-> & Hlen & Hag)]];
          [lia|lia| | |].
        -- left. split; [reflexivity|]. split; [lia|].
           intros i Hi. destruct (Nat.eq_dec i k) as [->|Hik].
           ++ congruence.
           ++ apply Hag. lia.
        -- right. left. split; [reflexivity|exact Hex].
        -- right. right. split; [reflexivity|]. split; [lia|].
           intros i Hi. destruct (Nat.eq_dec i k) as [->|Hik].
           ++ congruence.
           ++ apply Hag. lia.
      * right. left. split; [reflexivity|]. exists k, a, b. auto.
Qed.

Lemma agree_on_firstn (n : nat) :
  n <= length new -> n <= length old ->
  agree_on new old 0 n -> firstn n new = firstn n old.
Proof.
  intros Hn Ho H. apply nth_error_ext. intros i.
  rewrite !nth_error_firstn.
  destruct (Nat.ltb_spec i n) as [Hi|Hi]; [|reflexivity].
  apply H. lia.
Qed.

End EqualCases.

Lemma firstn_eq_nth_error (a b : list string) (i : nat) :
  firstn (length a) b = a -> i < length a -> nth_error b i = nth_error a i.
Proof.
  intros E Hi. rewrite <- E at 1. rewrite nth_error_firstn.
  apply Nat.ltb_lt in Hi. rewrite Hi. reflexivity.
Qed.

Lemma nth_error_Some_lt (l : list string) (i : nat) (x : string) :
  nth_error l i = Some x -> i < length l.
Proof.
  intros E. apply nth_error_Some. congruence.
Qed.

(** The outcome of [equal], whatever the two lengths. *)
Lemma equal_cases (new old : list string) :
  (equal new old = Ok true /\
   length new <= length old /\ firstn (length new) old = new) \/
  (equal new old = Ok false /\
   exists i a b, nth_error new i = Some a /\ nth_error old i = Some b /\ a <> b) \/
  (equal new old = Panic /\
   length old < length new /\ firstn (length old) new = old).
Proof.
  unfold equal.
  destruct (@equal_loop_cases new old (length new) 0)
    as [(E & Hlen & Hag)|[(E & Hex)|(E & Hlen & Hag)]]; [lia|lia| | |].
  - left. split; [exact E|]. split; [lia|].
    rewrite <- (@agree_on_firstn new old (length new)); [apply firstn_all|lia|lia|exact Hag].
  - right. left. split; [exact E|exact Hex].
  - right. right. split; [exact E|]. split; [lia|].
    rewrite Nat.sub_0_r in Hag.
    rewrite (@agree_on_firstn new old (length old)); [apply firstn_all|lia|lia|exact Hag].
Qed.

(** X1: [equal new old] answers [true] exactly when [new] is a prefix of
    [old]: no longer than [old] and equal to its first [len(new)] elements.
    The comparison is not symmetric: a shorter [new], the empty one among
    them, is "equal" to any [old] that starts with it. *)
Theorem equal_true_iff_prefix (new old : list string) :
  equal new old = Ok true <->
  length new <= length old /\ firstn (length new) old = new.
Proof.
  split.
  - intros E.
    destruct (equal_cases new old) as [(_ & H)|[(E' & _)|(E' & _)]];
      [exact H|congruence|congruence].
  - intros [Hlen Hpre].
    destruct (equal_cases new old)
      as [(E & _)|[(_ & i & a & b & Ha & Hb & Hab)|(_ & Hlt & _)]];
      [exact E| |lia].
    exfalso. apply Hab.
    pose proof (nth_error_Some_lt _ _ Ha) as Hi.
    rewrite <- (firstn_eq_nth_error old Hpre Hi) in Ha. congruence.
Qed.

(** X2: [equal new old] panics with an index out of range exactly when
    [old] is a proper prefix of [new]: the loop then reads [old[len(old)]]. *)
Theorem equal_panics_iff_old_proper_prefix (new old : list string) :
  equal new old = Panic <->
  length old < length new /\ firstn (length old) new = old.
Proof.
  split.
  - intros E.
    destruct (equal_cases new old) as [(E' & _)|[(E' & _)|(_ & H)]];
      [congruence|congruence|exact H].
  - intros [Hlen Hpre].
    destruct (equal_cases new old)
      as [(_ & Hle & _)|[(_ & i & a & b & Ha & Hb & Hab)|(E & _)]];
      [lia| |exact E].
    exfalso. apply Hab.
    pose proof (nth_error_Some_lt _ _ Hb) as Hi.
    rewrite (firstn_eq_nth_error new Hpre Hi) in Ha. congruence.
Qed.

(** X3: [equal new old] answers [false] exactly when some index holds
    different values in the two slices. *)
Theorem equal_false_iff_mismatch (new old : list string) :
  equal new old = Ok false <->
  exists i a b, nth_error new i = Some a /\ nth_error old i = Some b /\ a <> b.
Proof.
  split.
  - intros E.
    destruct (equal_cases new old) as [(E' & _)|[(_ & H)|(E' & _)]];
      [congruence|exact H|congruence].
  - intros (i & a & b & Ha & Hb & Hab).
    destruct (equal_cases new old)
      as [(_ & Hle & Hpre)|[(E & _)|(_ & Hlt & Hpre)]]; [|exact E|].
    + exfalso. apply Hab.
      pose proof (nth_error_Some_lt _ _ Ha) as Hi.
      rewrite <- (firstn_eq_nth_error old Hpre Hi) in Ha. congruence.
    + exfalso. apply Hab.
      pose proof (nth_error_Some_lt _ _ Hb) as Hi.
      rewrite (firstn_eq_nth_error new Hpre Hi) in Ha. congruence.
Qed.

(** ** [ShouldEnforceImmutability] as a relation between versions *)

Lemma SEI_true_of_not_longer (new old : list string) :
  length new <= length old -> ShouldEnforceImmutability new old = Ok true.
Proof.
  intros Hlen. apply SEI_true_iff. intros [H _]. lia.
Qed.

(** X4: allowed updates compose.  When the step from [a] to [b] and the step
    from [b] to [c] are both allowed, so is the step from [a] to [c]. *)
Theorem SEI_allowed_transitive (a b c : list string) :
  ShouldEnforceImmutability b a = Ok false ->
  ShouldEnforceImmutability c b = Ok false ->
  ShouldEnforceImmutability c a = Ok false.
Proof.
  intros Hab Hbc.
  apply SEI_false_iff, firstn_is_old_iff in Hab. destruct Hab as (e1 & Hne & ->).
  apply SEI_false_iff, firstn_is_old_iff in Hbc. destruct Hbc as (e2 & _ & ->).
  apply SEI_false_iff, firstn_is_old_iff.
  exists (e1 ++ e2). split.
  - destruct e1; [congruence|discriminate].
  - symmetry. apply app_assoc.
Qed.

Lemma SEI_allowed_transitive_witness :
  ShouldEnforceImmutability ["a"; "b"] ["a"] = Ok false /\
  ShouldEnforceImmutability ["a"; "b"; "c"; "d"] ["a"; "b"] = Ok false /\
  ShouldEnforceImmutability ["a"; "b"; "c"; "d"] ["a"] = Ok false.
Proof.
  split; [reflexivity|]. split; [reflexivity|].
  apply (@SEI_allowed_transitive ["a"] ["a"; "b"] ["a"; "b"; "c"; "d"]); reflexivity.
Defined.

(** X5: an allowed update cannot be undone.  When the step from [old] to
    [new] is allowed, the step back from [new] to [old] is enforced. *)
Theorem SEI_allowed_not_reversible (new old : list string) :
  ShouldEnforceImmutability new old = Ok false ->
  ShouldEnforceImmutability old new = Ok true.
Proof.
  intros H. apply SEI_false_iff in H. destruct H as [Hlen _].
  apply SEI_true_of_not_longer. lia.
Qed.

Lemma SEI_allowed_not_reversible_witness :
  ShouldEnforceImmutability ["a"; "b"; "c"] ["a"; "b"] = Ok false /\
  ShouldEnforceImmutability ["a"; "b"] ["a"; "b"; "c"] = Ok true.
Proof.
  split; [reflexivity|].
  apply (@SEI_allowed_not_reversible ["a"; "b"; "c"] ["a"; "b"]). reflexivity.
Defined.

(** X6: the added elements are never looked at.  Two candidates of the same
    length that agree on their first [len(old)] elements get the same answer,
    so an added element may repeat one already present. *)
Theorem SEI_ignores_added_values (new new' old : list string) :
  length new = length new' ->
  firstn (length old) new = firstn (length old) new' ->
  ShouldEnforceImmutability new old = ShouldEnforceImmutability new' old.
Proof.
  intros Hlen Hpre.
  destruct (SEI_returns new old) as ([|] & E); rewrite E; symmetry.
  - apply SEI_true_iff. apply SEI_true_iff in E.
    intros [H1 H2]. apply E. split; [lia|congruence].
  - apply SEI_false_iff. apply SEI_false_iff in E.
    destruct E as [H1 H2]. split; [lia|congruence].
Qed.

Lemma SEI_ignores_added_values_witness :
  length ["a"; "b"; "c"] = length ["a"; "b"; "a"] /\
  firstn (length ["a"; "b"]) ["a"; "b"; "c"] = firstn (length ["a"; "b"]) ["a"; "b"; "a"] /\
  ShouldEnforceImmutability ["a"; "b"; "c"] ["a"; "b"] =
  ShouldEnforceImmutability ["a"; "b"; "a"] ["a"; "b"].
Proof.
  split; [reflexivity|]. split; [reflexivity|].
  apply (@SEI_ignores_added_values ["a"; "b"; "c"] ["a"; "b"; "a"] ["a"; "b"]);
    reflexivity.
Defined.

(** X7: the empty sequence.  Starting from an empty [old], every non-empty
    [new] is allowed and the empty one is enforced; an empty [new] is
    enforced against every [old]. *)
Theorem SEI_empty_sequences :
  (forall new : list string,
     ShouldEnforceImmutability new [] = Ok false <-> new <> []) /\
  (forall old : list string, ShouldEnforceImmutability [] old = Ok true).
Proof.
  split.
  - intros new. rewrite SEI_false_iff. simpl. destruct new; simpl; split.
    + intros [H _]. lia.
    + congruence.
    + discriminate.
    + intros _. split; [lia|reflexivity].
  - intros old. apply SEI_true_of_not_longer. simpl. lia.
Qed.

(** ** [validateDNS1123Subdomain] and [validateDNS1123Label] *)

(** The appending loop turns the messages into errors one for one. *)
Lemma append_each_is_map (A B : Type) (f : A -> B) (msgs : list A) (acc : list B) :
  fold_left (fun allErrs msg => allErrs ++ [f msg]) msgs acc = acc ++ map f msgs.
Proof.
  revert acc. induction msgs as [|m msgs IH]; intros acc; simpl.
  - symmetry. apply app_nil_r.
  - rewrite IH, <- app_assoc. reflexivity.
Qed.

(** X8: [validateDNS1123Subdomain] returns one Invalid error per message of
    the subdomain checker, in the checker's order, each at [fldPath] and
    carrying the value; the result is empty exactly when the checker has no
    message. *)
Theorem validateDNS1123Subdomain_errors
  (IsDNS1123Subdomain : string -> list string) (value : string) (fldPath : field.Path) :
  validateDNS1123Subdomain IsDNS1123Subdomain value fldPath =
    map (field.Invalid fldPath value) (IsDNS1123Subdomain value) /\
  length (validateDNS1123Subdomain IsDNS1123Subdomain value fldPath) =
    length (IsDNS1123Subdomain value) /\
  (validateDNS1123Subdomain IsDNS1123Subdomain value fldPath = [] <->
   IsDNS1123Subdomain value = []).
Proof.
  unfold validateDNS1123Subdomain. rewrite append_each_is_map. simpl.
  split; [reflexivity|]. split; [apply length_map|].
  destruct (IsDNS1123Subdomain value); simpl; split; congruence.
Qed.

(** X9: [validateDNS1123Label] returns one Invalid error per message of the
    label checker, in the checker's order, each at [fldPath] and carrying the
    value; the result is empty exactly when the checker has no message. *)
Theorem validateDNS1123Label_errors
  (IsDNS1123Label : string -> list string) (value : string) (fldPath : field.Path) :
  validateDNS1123Label IsDNS1123Label value fldPath =
    map (field.Invalid fldPath value) (IsDNS1123Label value) /\
  length (validateDNS1123Label IsDNS1123Label value fldPath) =
    length (IsDNS1123Label value) /\
  (validateDNS1123Label IsDNS1123Label value fldPath = [] <->
   IsDNS1123Label value = []).
Proof.
  unfold validateDNS1123Label. rewrite append_each_is_map. simpl.
  split; [reflexivity|]. split; [apply length_map|].
  destruct (IsDNS1123Label value); simpl; split; congruence.
Qed.

(** ** [validateNameConsecutiveHyphens] and concatenation *)

#[local] Open Scope string_scope.

Lemma string_app_assoc (a b c : string) : (a ++ b) ++ c = a ++ (b ++ c).
Proof. induction a as [|x a IH]; simpl; [reflexivity|]. rewrite IH. reflexivity. Qed.

Lemma hyphens_accepted_iff (name : string) (path : field.Path) :
  validateNameConsecutiveHyphens name path = [] <-> ~ occurs_in "--" name.
Proof.
  unfold validateNameConsecutiveHyphens.
  destruct (strings.Contains name "--") eqn:C; simpl.
  - apply Contains_true_iff in C. split; [discriminate|]. intros H. contradiction.
  - split; [|reflexivity]. intros _ H. apply Contains_true_iff in H. congruence.
Qed.

Lemma occurs_in_app_l (sub a b : string) :
  occurs_in sub a -> occurs_in sub (a ++ b).
Proof.
  intros (pre & post & ->). exists pre, (post ++ b).
  rewrite !string_app_assoc. reflexivity.
Qed.

Lemma occurs_in_app_r (sub a b : string) :
  occurs_in sub b -> occurs_in sub (a ++ b).
Proof.
  intros (pre & post & ->). exists (a ++ pre), post.
  rewrite !string_app_assoc. reflexivity.
Qed.

Lemma occurs_in_boundary (a b : string) :
  ends_with_hyphen a -> starts_with_hyphen b -> occurs_in "--" (a ++ b).
Proof.
  intros (a0 & ->) (b0 & ->). exists a0, b0.
  rewrite string_app_assoc. reflexivity.
Qed.

Lemma ends_with_hyphen_tail (c : ascii) (a : string) :
  ends_with_hyphen a -> ends_with_hyphen (String c a).
Proof. intros (a0 & ->). exists (String c a0). reflexivity. Qed.

(** Where two hyphens in a row can sit in a concatenation. *)
Lemma occurs_in_app_inv (a b : string) :
  occurs_in "--" (a ++ b) ->
  occurs_in "--" a \/ occurs_in "--" b \/
  (ends_with_hyphen a /\ starts_with_hyphen b).
Proof.
  induction a as [|c a IH]; simpl; intros H.
  - right. left. exact H.
  - apply occurs_in_inv in H. destruct H as [H|H].
    + apply prefix_true_iff in H. destruct H as (post & E).
      simpl in E. injection E as -> E.
      destruct a as [|d a]; simpl in E.
      * right. right. split.
        -- exists "". reflexivity.
        -- exists post. exact E.
      * injection E as -> _. left. exists "", a. reflexivity.
    + destruct (IH H) as [Ha|[Hb|[He Hs]]].
      * left. apply occurs_in_tail, Ha.
      * right. left. exact Hb.
      * right. right. split; [apply ends_with_hyphen_tail, He|exact Hs].
Qed.

(** X10: acceptance is inherited by the parts.  When a concatenation has no
    two consecutive hyphens, neither part has. *)
Theorem hyphens_accepted_parts (a b : string) (path pa pb : field.Path) :
  validateNameConsecutiveHyphens (a ++ b) path = [] ->
  validateNameConsecutiveHyphens a pa = [] /\
  validateNameConsecutiveHyphens b pb = [].
Proof.
  rewrite !hyphens_accepted_iff. intros H. split; intros Ho; apply H.
  - apply occurs_in_app_l, Ho.
  - apply occurs_in_app_r, Ho.
Qed.

Lemma hyphens_accepted_parts_witness :
  validateNameConsecutiveHyphens ("shoot-" ++ "x-1") [] = [] /\
  validateNameConsecutiveHyphens "shoot-" ["a"] = [] /\
  validateNameConsecutiveHyphens "x-1" ["b"] = [].
Proof.
  split; [reflexivity|].
  apply (@hyphens_accepted_parts "shoot-" "x-1" [] ["a"] ["b"]). reflexivity.
Defined.

(** X11: joining two accepted names.  When both parts are accepted, their
    concatenation is rejected exactly when the first ends with a hyphen and
    the second starts with one. *)
Theorem hyphens_accepted_concat (a b : string) (path pa pb : field.Path) :
  validateNameConsecutiveHyphens a pa = [] ->
  validateNameConsecutiveHyphens b pb = [] ->
  (validateNameConsecutiveHyphens (a ++ b) path =
     [field.Invalid path (a ++ b) "name may not contain two consecutive hyphens"]
   <-> ends_with_hyphen a /\ starts_with_hyphen b) /\
  (validateNameConsecutiveHyphens (a ++ b) path = []
   <-> ~ (ends_with_hyphen a /\ starts_with_hyphen b)).
Proof.
  intros Ha Hb. apply hyphens_accepted_iff in Ha. apply hyphens_accepted_iff in Hb.
  assert (Hocc : occurs_in "--" (a ++ b) <-> ends_with_hyphen a /\ starts_with_hyphen b).
  { split.
    - intros H. apply occurs_in_app_inv in H.
      destruct H as [H|[H|H]]; [contradiction|contradiction|exact H].
    - intros [He Hs]. apply occurs_in_boundary; assumption. }
  split.
  - rewrite <- Hocc. unfold validateNameConsecutiveHyphens.
    destruct (strings.Contains (a ++ b) "--") eqn:C; simpl.
    + apply Contains_true_iff in C. split; [intros _; exact C|reflexivity].
    + split; [discriminate|]. intros H. apply Contains_true_iff in H. congruence.
  - rewrite hyphens_accepted_iff, Hocc. reflexivity.
Qed.

Lemma hyphens_accepted_concat_witness :
  validateNameConsecutiveHyphens "shoot-" [] = [] /\
  validateNameConsecutiveHyphens "-x" [] = [] /\
  validateNameConsecutiveHyphens ("shoot-" ++ "-x") ["metadata"; "name"] =
    [field.Invalid ["metadata"; "name"] "shoot--x"
       "name may not contain two consecutive hyphens"].
Proof.
  split; [reflexivity|]. split; [reflexivity|].
  apply (proj1 (@hyphens_accepted_concat "shoot-" "-x" ["metadata"; "name"] [] []
                  eq_refl eq_refl)).
  split.
  - exists "shoot". reflexivity.
  - exists "x". reflexivity.
Defined.

(** ** [getPercentValue] and [getIntOrPercentValue] on every input *)

Lemma percent_rest_iff (s : string) :
  validation.percent_rest s = true <->
  exists d, s = d ++ "%" /\ all_digits d = true.
Proof.
  induction s as [|c s IH].
  - simpl. split; [discriminate|]. intros ([|x d] & E & _); discriminate E.
  - destruct s as [|c' s].
    + simpl. split.
      * intros H. apply Ascii.eqb_eq in H. subst c. exists "". split; reflexivity.
      * intros ([|x [|y d]] & E & _); simpl in E; try discriminate E.
        injection E as ->. reflexivity.
    + change (validation.percent_rest (String c (String c' s)))
        with (is_digit c && validation.percent_rest (String c' s))%bool.
      rewrite andb_true_iff, IH. split.
      * intros (Hc & d & E & Hd). exists (String c d). simpl.
        rewrite E, Hc, Hd. split; reflexivity.
      * intros ([|x d] & E & Hd); simpl in E; [discriminate E|].
        injection E as -> E. simpl in Hd. apply andb_true_iff in Hd.
        destruct Hd as [Hx Hd]. split; [exact Hx|]. exists d. split; assumption.
Qed.

Lemma matches_percent_iff (s : string) :
  validation.matches_percent s = true <->
  exists d, s = d ++ "%" /\ d <> "" /\ all_digits d = true.
Proof.
  destruct s as [|c s]; simpl.
  - split; [discriminate|]. intros ([|x d] & E & _); discriminate E.
  - rewrite andb_true_iff, percent_rest_iff. split.
    + intros (Hc & d & -> & Hd). exists (String c d). simpl. rewrite Hc, Hd.
      repeat split. discriminate.
    + intros ([|x d] & E & Hne & Hd); [congruence|].
      simpl in E. injection E as -> ->. simpl in Hd. apply andb_true_iff in Hd.
      destruct Hd as [Hx Hd]. split; [exact Hx|]. exists d. split; [reflexivity|exact Hd].
Qed.

Lemma length_append_percent (d : string) :
  String.length (d ++ "%") = S (String.length d).
Proof. induction d as [|c d IH]; simpl; [reflexivity|]. rewrite IH. reflexivity. Qed.

Lemma substring_append (d t : string) : substring 0 (String.length d) (d ++ t) = d.
Proof.
  induction d as [|c d IH]; simpl.
  - destruct t; reflexivity.
  - rewrite IH. reflexivity.
Qed.

(** Dropping the last byte of "<digits>%" leaves the digits. *)
Lemma string_slice_to_percent (d : string) :
  string_slice_to (d ++ "%") (strlen (d ++ "%") - 1) = Ok d.
Proof.
  unfold string_slice_to, strlen. rewrite length_append_percent.
  replace (Z.of_nat (S (String.length d)) - 1)%Z with (Z.of_nat (String.length d)) by lia.
  rewrite Nat2Z.id, substring_append.
  destruct (_ && _)%bool eqn:E; [reflexivity|].
  apply andb_false_iff in E. destruct E as [E|E]; apply Z.leb_gt in E; exfalso; lia.
Qed.

Lemma is_digit_value (c : ascii) :
  is_digit c = true -> (0 <= Z.of_nat (nat_of_ascii c) - 48 <= 9)%Z.
Proof.
  unfold is_digit. rewrite andb_true_iff, !Nat.leb_le. lia.
Qed.

Lemma digits_value_all_digits (d : string) (acc : Z) :
  all_digits d = true -> (0 <= acc)%Z ->
  exists v, strconv.digits_value acc d = Some v /\ (0 <= v)%Z.
Proof.
  revert acc. induction d as [|c d IH];
    cbn [strconv.digits_value all_digits]; intros acc Hd Hacc.
  - exists acc. split; [reflexivity|exact Hacc].
  - apply andb_true_iff in Hd. destruct Hd as [Hc Hd]. rewrite Hc.
    apply IH; [exact Hd|]. pose proof (is_digit_value _ Hc). lia.
Qed.

(** A digit is neither sign, so [Atoi] reads a digit string as a whole. *)
Lemma Atoi_leading_digit (c : ascii) (r : string) :
  is_digit c = true ->
  strconv.Atoi (String c r) =
  match strconv.digits_value 0 (String c r) with
  | None => (0%Z, Some strconv.ErrSyntax)
  | Some v =>
      if (v >? strconv.maxInt)%Z then (strconv.maxInt, Some strconv.ErrRange)
      else if (v <? strconv.minInt)%Z then (strconv.minInt, Some strconv.ErrRange)
      else (v, None)
  end.
Proof.
  destruct c as [[|] [|] [|] [|] [|] [|] [|] [|]];
    intros H; try discriminate H; reflexivity.
Qed.

(** On a non-empty digit string [Atoi] yields its decimal value, capped at
    the largest [int]. *)
Lemma Atoi_digits (d : string) :
  d <> "" -> all_digits d = true ->
  exists v, strconv.digits_value 0 d = Some v /\ (0 <= v)%Z /\
            fst (strconv.Atoi d) = Z.min v strconv.maxInt.
Proof.
  intros Hne Hd. destruct d as [|c r]; [congruence|].
  destruct (digits_value_all_digits (String c r) (acc := 0%Z) Hd) as (v & Ev & Hv); [lia|].
  exists v. split; [exact Ev|]. split; [exact Hv|].
  simpl in Hd. apply andb_true_iff in Hd. destruct Hd as [Hc _].
  rewrite (@Atoi_leading_digit c r Hc), Ev.
  destruct (Z.gtb_spec v strconv.maxInt) as [Hgt|Hle]; simpl; [lia|].
  destruct (Z.ltb_spec v strconv.minInt) as [Hlt|Hge]; simpl.
  - unfold strconv.minInt in Hlt. lia.
  - lia.
Qed.

(** The result of [getPercentValue] on a string-typed valid percent. *)
Lemma getPercentValue_digits (intVal : Z) (d : string) :
  d <> "" -> all_digits d = true ->
  getPercentValue (intstr.mkIntOrString intstr.String intVal (d ++ "%")) =
    Ok (fst (strconv.Atoi d), true).
Proof.
  intros Hne Hd. unfold getPercentValue. simpl.
  unfold validation.IsValidPercent.
  replace (validation.matches_percent (d ++ "%")) with true.
  - simpl. rewrite string_slice_to_percent. simpl.
    destruct (strconv.Atoi d). reflexivity.
  - symmetry. apply matches_percent_iff. exists d. auto.
Qed.

(** The two ways [getPercentValue] can end. *)
Lemma getPercentValue_cases (v : intstr.IntOrString) :
  (intstr.Type_ v = intstr.String /\
   validation.IsValidPercent (intstr.StrVal v) = [] /\
   exists d val,
     intstr.StrVal v = d ++ "%" /\ d <> "" /\ all_digits d = true /\
     strconv.digits_value 0 d = Some val /\ (0 <= val)%Z /\
     getPercentValue v = Ok (Z.min val strconv.maxInt, true)) \/
  ((intstr.Type_ v <> intstr.String \/
    validation.IsValidPercent (intstr.StrVal v) <> []) /\
   getPercentValue v = Ok (0%Z, false)).
Proof.
  destruct v as [t iv s]. cbn [intstr.Type_ intstr.StrVal].
  destruct (Z.eqb_spec t intstr.String) as [->|Ht].
  - destruct (validation.matches_percent s) eqn:M.
    + left. split; [reflexivity|].
      split; [unfold validation.IsValidPercent; rewrite M; reflexivity|].
      apply matches_percent_iff in M. destruct M as (d & -> & Hne & Hd).
      destruct (Atoi_digits Hne Hd) as (val & Ev & Hval & Hfst).
      exists d, val. repeat split; try assumption.
      rewrite (getPercentValue_digits iv Hne Hd), Hfst. reflexivity.
    + right. split.
      * right. unfold validation.IsValidPercent. rewrite M. discriminate.
      * unfold getPercentValue, validation.IsValidPercent. simpl. rewrite M. reflexivity.
  - right. split; [left; exact Ht|].
    unfold getPercentValue. cbn [intstr.Type_].
    apply Z.eqb_neq in Ht. rewrite Ht. reflexivity.
Qed.

(** X12: [getPercentValue] never panics; its flag is [true] exactly for a
    string-typed value that passes [IsValidPercent]; with the flag [false]
    the number is [0], and the number always lies between [0] and the largest
    [int]. *)
Theorem getPercentValue_outcome (v : intstr.IntOrString) :
  exists n b,
    getPercentValue v = Ok (n, b) /\
    (b = true <->
     intstr.Type_ v = intstr.String /\
     validation.IsValidPercent (intstr.StrVal v) = []) /\
    (b = false -> n = 0%Z) /\
    (0 <= n <= strconv.maxInt)%Z.
Proof.
  destruct (getPercentValue_cases v)
    as [(Ht & Hv & d & val & _ & _ & _ & _ & Hval & E)|(Hno & E)].
  - exists (Z.min val strconv.maxInt), true. split; [exact E|].
    split; [split; auto|]. split; [discriminate|].
    unfold strconv.maxInt. lia.
  - exists 0%Z, false. split; [exact E|]. split; [|split].
    + split; [discriminate|]. intros [Ht Hv]. destruct Hno; contradiction.
    + reflexivity.
    + unfold strconv.maxInt. lia.
Qed.

Lemma all_digits_string_of_uint (d : Decimal.uint) :
  all_digits (NilEmpty.string_of_uint d) = true.
Proof. induction d; simpl; try rewrite IHd; reflexivity. Qed.

Lemma digits_value_step (c : ascii) (s : string) (a n : nat) :
  is_digit c = true -> nat_of_ascii c = 48 + n ->
  strconv.digits_value (Z.of_nat a) (String c s) =
  strconv.digits_value (Z.of_nat (n + 10 * a)) s.
Proof.
  intros Hc Hn. cbn [strconv.digits_value]. rewrite Hc. f_equal. lia.
Qed.

(** Reading back the decimal numeral of a number gives the number. *)
Lemma digits_value_string_of_uint (d : Decimal.uint) (a : nat) :
  strconv.digits_value (Z.of_nat a) (NilEmpty.string_of_uint d) =
  Some (Z.of_nat (Nat.of_uint_acc d a)).
Proof.
  revert a. induction d; intros a;
    cbn [NilEmpty.string_of_uint Nat.of_uint_acc]; rewrite ?Nat.tail_mul_spec.
  - reflexivity.
  - rewrite (@digits_value_step _ _ a 0) by reflexivity. apply IHd.
  - rewrite (@digits_value_step _ _ a 1) by reflexivity. apply IHd.
  - rewrite (@digits_value_step _ _ a 2) by reflexivity. apply IHd.
  - rewrite (@digits_value_step _ _ a 3) by reflexivity. apply IHd.
  - rewrite (@digits_value_step _ _ a 4) by reflexivity. apply IHd.
  - rewrite (@digits_value_step _ _ a 5) by reflexivity. apply IHd.
  - rewrite (@digits_value_step _ _ a 6) by reflexivity. apply IHd.
  - rewrite (@digits_value_step _ _ a 7) by reflexivity. apply IHd.
  - rewrite (@digits_value_step _ _ a 8) by reflexivity. apply IHd.
  - rewrite (@digits_value_step _ _ a 9) by reflexivity. apply IHd.
Qed.

Lemma to_uint_nonnil (n : nat) : Nat.to_uint n <> Decimal.Nil.
Proof.
  rewrite <- (Unsigned.of_to n) at 1. rewrite Unsigned.to_of.
  apply DecimalFacts.unorm_nonnil.
Qed.

Lemma string_of_uint_nonempty (d : Decimal.uint) :
  d <> Decimal.Nil -> NilEmpty.string_of_uint d <> "".
Proof. destruct d; simpl; congruence. Qed.

Example percent_string_42 : percent_string 42 = "42%".
Proof. reflexivity. Qed.

(** X13: round trip through the percent syntax.  The decimal numeral of [n]
    followed by a percent sign is read back as [n] with the flag [true]; a
    number above the largest [int] comes back as the largest [int], still
    with the flag [true]. *)
Theorem getPercentValue_percent_string (n : nat) :
  getPercentValue (intstr.FromString (percent_string n)) =
    Ok (Z.min (Z.of_nat n) strconv.maxInt, true).
Proof.
  unfold intstr.FromString, percent_string.
  pose proof (string_of_uint_nonempty (to_uint_nonnil n)) as Hne.
  pose proof (all_digits_string_of_uint (Nat.to_uint n)) as Hd.
  rewrite (getPercentValue_digits 0 Hne Hd).
  destruct (Atoi_digits Hne Hd) as (val & Ev & _ & ->).
  change 0%Z with (Z.of_nat 0) in Ev.
  rewrite digits_value_string_of_uint in Ev.
  change (Nat.of_uint_acc (Nat.to_uint n) 0) with (Nat.of_uint (Nat.to_uint n)) in Ev.
  rewrite Unsigned.of_to in Ev. injection Ev as <-. reflexivity.
Qed.

(** X14: [getIntOrPercentValue] never panics.  On the percent numeral of [n]
    it returns [n] (capped at the largest [int]) without consulting
    [IntValue]; on every value that is not a string-typed valid percent, the
    integer-typed ones among them, it returns [IntValue] of the value. *)
Theorem getIntOrPercentValue_outcome (IntValue : intstr.IntOrString -> Z) :
  (forall n : nat,
     getIntOrPercentValue IntValue (intstr.FromString (percent_string n)) =
       Ok (Z.min (Z.of_nat n) strconv.maxInt)) /\
  (forall v : intstr.IntOrString,
     intstr.Type_ v <> intstr.String \/
     validation.IsValidPercent (intstr.StrVal v) <> [] ->
     getIntOrPercentValue IntValue v = Ok (IntValue v)) /\
  (forall v : intstr.IntOrString,
     exists n, getIntOrPercentValue IntValue v = Ok n).
Proof.
  split; [|split].
  - intros n. unfold getIntOrPercentValue.
    pose proof (string_of_uint_nonempty (to_uint_nonnil n)) as Hne.
    pose proof (all_digits_string_of_uint (Nat.to_uint n)) as Hd.
    unfold intstr.FromString, percent_string.
    rewrite (getPercentValue_digits 0 Hne Hd). cbn [bind fst].
    destruct (Atoi_digits Hne Hd) as (val & Ev & _ & ->).
    change 0%Z with (Z.of_nat 0) in Ev.
    rewrite digits_value_string_of_uint in Ev.
    change (Nat.of_uint_acc (Nat.to_uint n) 0) with (Nat.of_uint (Nat.to_uint n)) in Ev.
    rewrite Unsigned.of_to in Ev. injection Ev as <-. reflexivity.
  - intros v Hno. unfold getIntOrPercentValue.
    destruct (getPercentValue_cases v) as [(Ht & Hv & _)|(_ & ->)].
    + destruct Hno; contradiction.
    + reflexivity.
  - intros v. unfold getIntOrPercentValue.
    destruct (getPercentValue_cases v)
      as [(_ & _ & d & val & _ & _ & _ & _ & _ & ->)|(_ & ->)]; simpl; eauto.
Qed.

Lemma getIntOrPercentValue_outcome_witness :
  getIntOrPercentValue intstr.IntVal (intstr.FromInt 5) = Ok 5%Z /\
  getIntOrPercentValue intstr.IntVal (intstr.FromString "x%") = Ok 0%Z.
Proof.
  split.
  - apply (proj1 (proj2 (getIntOrPercentValue_outcome intstr.IntVal)) (intstr.FromInt 5)).
    left. discriminate.
  - apply (proj1 (proj2 (getIntOrPercentValue_outcome intstr.IntVal))
             (intstr.FromString "x%")).
    right. discriminate.
Defined.
